(** * update_tokens_table.py: the TokensTable.js source patcher

    The script reads one file into a string, performs five literal
    [str.replace] substitutions in sequence, and writes the string back.
    This development embeds the script shallowly:

    - a text is a list of characters (the ten literals of the script are
      ASCII); the five (old, new) literals are transcribed line by line
      from the script;
    - [startswith], [contains] and [replace] follow the behaviour of the
      Python built-ins the script relies on ([str.replace] substitutes the
      leftmost non-overlapping occurrences, scanning left to right);
    - [patch] is the body of the script between the read and the write;
    - [run] is the whole script as a program over an arbitrary runtime
      (any behaviour of [open], [read], [write] and [close]), in a small
      state-and-exception monad that records every operation and what it
      returned. *)

From Stdlib Require Import Ascii String List Arith Bool Lia.
From stdpp Require Import base option list strings gmap.

Abbreviation text := (list ascii).

(** ** Literals *)

Definition LF : ascii := ascii_of_nat 10.

(** The double quote character, as a one-character string. *)
Definition dq : string := String (ascii_of_nat 34) EmptyString.

Definition chars (s : string) : text := list_ascii_of_string s.

(** A triple-quoted Python literal whose lines are [ls]: the lines are
    separated by a line feed and the last line is not terminated. *)
Fixpoint block (ls : list string) : text :=
  match ls with
  | [] => []
  | [l] => chars l
  | l :: ls' => chars l ++ LF :: block ls'
  end.

Definition old_v : text :=
  block
    [ "                  <Popup";
      "                    trigger={";
      "                      <Button";
      ("                        size=" +:+ dq +:+ "mini" +:+ dq);
      "                        icon";
      "                        onClick={() => toggleKeyVisibility(token.id)}";
      "                      >";
      "                        <Icon name={showKeys[token.id] ? 'eye slash' : 'eye'} />";
      "                      </Button>";
      "                    }";
      "                    content={showKeys[token.id] ? t('common:hide') : t('common:show')}";
      "                    basic";
      "                    inverted";
      "                  />" ].

Definition new_v : text :=
  block
    [ "                  <Popup";
      "                    trigger={";
      "                      <Button";
      ("                        size=" +:+ dq +:+ "mini" +:+ dq);
      "                        icon";
      "                        onClick={() => toggleKeyVisibility(token.id)}";
      "                        aria-label={showKeys[token.id] ? t('common:hide', 'Hide') : t('common:show', 'Show')}";
      "                      >";
      "                        <Icon name={showKeys[token.id] ? 'eye slash' : 'eye'} />";
      "                      </Button>";
      "                    }";
      "                    content={showKeys[token.id] ? t('common:hide', 'Hide') : t('common:show', 'Show')}";
      "                    basic";
      "                    inverted";
      "                  />" ].

Definition old_c : text :=
  block
    [ "                  <Popup";
      "                    trigger={";
      "                      <Button";
      ("                        size=" +:+ dq +:+ "mini" +:+ dq);
      "                        icon";
      "                        onClick={() => copyTokenKey(token.key)}";
      "                      >";
      ("                        <Icon name=" +:+ dq +:+ "copy" +:+ dq +:+ " />");
      "                      </Button>";
      "                    }";
      "                    content={t('common:copy')}";
      "                    basic";
      "                    inverted";
      "                  />" ].

Definition new_c : text :=
  block
    [ "                  <Popup";
      "                    trigger={";
      "                      <Button";
      ("                        size=" +:+ dq +:+ "mini" +:+ dq);
      "                        icon";
      "                        onClick={() => copyTokenKey(token.key)}";
      "                        aria-label={t('common:copy', 'Copy')}";
      "                      >";
      ("                        <Icon name=" +:+ dq +:+ "copy" +:+ dq +:+ " />");
      "                      </Button>";
      "                    }";
      "                    content={t('common:copy', 'Copy')}";
      "                    basic";
      "                    inverted";
      "                  />" ].

Definition old_e : text :=
  block
    [ "                  <Popup";
      "                    trigger={";
      "                      <Button";
      "                        size='small'";
      "                        positive={token.status === 1}";
      "                        negative={token.status !== 1}";
      "                        onClick={() => {";
      "                          manageToken(";
      "                            token.id,";
      "                            token.status === 1 ? 'disable' : 'enable',";
      "                            idx";
      "                          );";
      "                        }}";
      "                      >";
      "                        {token.status === 1 ? (";
      "                          <Icon name='pause' />";
      "                        ) : (";
      "                          <Icon name='play' />";
      "                        )}";
      "                      </Button>";
      "                    }";
      "                    content={";
      "                      token.status === 1";
      "                        ? t('common:disable')";
      "                        : t('common:enable')";
      "                    }";
      "                    basic";
      "                    inverted";
      "                  />" ].

Definition new_e : text :=
  block
    [ "                  <Popup";
      "                    trigger={";
      "                      <Button";
      "                        size='small'";
      "                        positive={token.status === 1}";
      "                        negative={token.status !== 1}";
      "                        onClick={() => {";
      "                          manageToken(";
      "                            token.id,";
      "                            token.status === 1 ? 'disable' : 'enable',";
      "                            idx";
      "                          );";
      "                        }}";
      "                        aria-label={";
      "                          token.status === 1";
      "                            ? t('common:disable', 'Disable')";
      "                            : t('common:enable', 'Enable')";
      "                        }";
      "                      >";
      "                        {token.status === 1 ? (";
      "                          <Icon name='pause' />";
      "                        ) : (";
      "                          <Icon name='play' />";
      "                        )}";
      "                      </Button>";
      "                    }";
      "                    content={";
      "                      token.status === 1";
      "                        ? t('common:disable', 'Disable')";
      "                        : t('common:enable', 'Enable')";
      "                    }";
      "                    basic";
      "                    inverted";
      "                  />" ].

Definition old_ed : text :=
  block
    [ "                  <Popup";
      "                    trigger={";
      "                      <Button";
      "                        size='small'";
      "                        color='blue'";
      "                        as={Link}";
      "                        to={'/token/edit/' + token.id}";
      "                      >";
      "                        <Icon name='edit' />";
      "                      </Button>";
      "                    }";
      "                    content={t('common:edit')}";
      "                    basic";
      "                    inverted";
      "                  />" ].

Definition new_ed : text :=
  block
    [ "                  <Popup";
      "                    trigger={";
      "                      <Button";
      "                        size='small'";
      "                        color='blue'";
      "                        as={Link}";
      "                        to={'/token/edit/' + token.id}";
      "                        aria-label={t('common:edit', 'Edit')}";
      "                      >";
      "                        <Icon name='edit' />";
      "                      </Button>";
      "                    }";
      "                    content={t('common:edit', 'Edit')}";
      "                    basic";
      "                    inverted";
      "                  />" ].

Definition old_d : text :=
  block
    [ "                  <Popup";
      "                    trigger={";
      "                      <Button";
      "                        size='small'";
      "                        negative";
      "                        onClick={() => {";
      "                          manageToken(token.id, 'delete', idx);";
      "                        }}";
      "                      >";
      "                        <Icon name='trash' />";
      "                      </Button>";
      "                    }";
      "                    content={t('common:delete')}";
      "                    basic";
      "                    inverted";
      "                  />" ].

Definition new_d : text :=
  block
    [ "                  <Popup";
      "                    trigger={";
      "                      <Button";
      "                        size='small'";
      "                        negative";
      "                        aria-label={t('common:delete', 'Delete')}";
      "                      >";
      "                        <Icon name='trash' />";
      "                      </Button>";
      "                    }";
      "                    on='click'";
      "                    flowing";
      "                    hoverable";
      "                  >";
      "                    <Button";
      "                      negative";
      "                      onClick={() => {";
      "                        manageToken(token.id, 'delete', idx);";
      "                      }}";
      "                    >";
      "                      {t('token.confirm_delete', 'Delete Token')}";
      "                    </Button>";
      "                  </Popup>" ].

(** ** The string built-ins used by the script *)

(** [s.startswith(old)] *)
Fixpoint startswith (s old : text) {struct old} : bool :=
  match old, s with
  | [], _ => true
  | _ :: _, [] => false
  | a :: old', c :: s' => if Ascii.eqb a c then startswith s' old' else false
  end.

(** [old in s] *)
Fixpoint contains (s old : text) : bool :=
  if startswith s old then true
  else
    match s with
    | [] => false
    | _ :: s' => contains s' old
    end.

(** The scan of [str.replace] for a non-empty [old]: [skip] is the number
    of characters of the current match that are still to be consumed. *)
Fixpoint replace_from (old new : text) (skip : nat) (s : text) : text :=
  match s with
  | [] => []
  | c :: s' =>
      match skip with
      | S k => replace_from old new k s'
      | O =>
          if startswith s old
          then new ++ replace_from old new (length old - 1) s'
          else c :: replace_from old new 0 s'
      end
  end.

(** [s.replace(old, new)]. For an empty [old] Python inserts [new] before
    every character and at the end. *)
Definition replace (s old new : text) : text :=
  match old with
  | [] => new ++ flat_map (fun c => c :: new) s
  | _ :: _ => replace_from old new 0 s
  end.

(** ** The script *)

(** The body of the script between [f.read()] and [f.write(content)]. *)
Definition patch (content : text) : text :=
  let content := replace content old_v new_v in
  let content := replace content old_c new_c in
  let content := replace content old_e new_e in
  let content := replace content old_ed new_ed in
  let content := replace content old_d new_d in
  content.

(** The five replacement rules, as (old, new) pairs in script order. *)
Definition rules : list (text * text) :=
  [ (old_v, new_v); (old_c, new_c); (old_e, new_e); (old_ed, new_ed);
    (old_d, new_d) ].

(** A sequence of rules applied one after the other, each to the output of
    the previous one. *)
Fixpoint apply_rules (rs : list (text * text)) (buf : text) : text :=
  match rs with
  | [] => buf
  | r :: rs' => apply_rules rs' (replace buf r.1 r.2)
  end.

(** The patcher as the specification words it: the five rules applied
    sequentially in their fixed order. *)
Definition patch_sequential (content : text) : text :=
  apply_rules rules content.

(** ** The script as a program over the Python runtime

    The script reaches the outside through four operations on file
    objects: [open], [read], [write], and the [close] that leaving a
    [with] block performs. What these do (which files exist, how bytes
    are decoded and line ends translated, what the locale is, which
    exceptions are raised and when) belongs to the runtime and the
    operating system, not to the script, and is left open here: a runtime
    is any such functions over a state of its own. Every file operation
    returns the new state together with either an exception or its
    result. A runtime also holds the process arguments and the environment
    variables, which a script may ask for. *)

(** The modes ['r'] and ['w'] of [open]. *)
Inductive mode : Type :=
  | ModeR
  | ModeW.

(** An exception, by the name of its class. *)
Inductive exn : Type :=
  | Raised (cls : string).

Record runtime (St H : Type) : Type := Runtime {
  rt_argv : St -> list string;
  rt_getenv : string -> St -> option string;
  rt_open : string -> mode -> St -> St * (exn + H);
  rt_read : H -> St -> St * (exn + text);
  rt_write : H -> text -> St -> St * (exn + unit);
  rt_close : H -> St -> St * (exn + unit)
}.

Arguments rt_argv {St H}.
Arguments rt_getenv {St H}.
Arguments rt_open {St H}.
Arguments rt_read {St H}.
Arguments rt_write {St H}.
Arguments rt_close {St H}.

(** What the script did and what came back, in order. *)
Inductive event : Type :=
  | EvArgv (v : list string)
  | EvGetenv (name : string) (v : option string)
  | EvOpen (p : string) (m : mode) (e : option exn)
  | EvRead (r : exn + text)
  | EvWrite (data : text) (e : option exn)
  | EvClose (e : option exn).

Record machine (St : Type) : Type := Machine {
  state : St;
  trace : list event
}.

Arguments Machine {St}.
Arguments state {St}.
Arguments trace {St}.

Definition raised {A} (r : exn + A) : option exn :=
  match r with
  | inl e => Some e
  | inr _ => None
  end.

(** Programs that may raise: an exception ends the program at once. *)
Definition io (St A : Type) : Type := machine St -> machine St * (exn + A).

Definition io_ret {St A} (x : A) : io St A := fun mc => (mc, inr x).

Definition io_bind {St A B} (m : io St A) (k : A -> io St B) : io St B :=
  fun mc =>
    match m mc with
    | (mc', inl e) => (mc', inl e)
    | (mc', inr x) => k x mc'
    end.

Notation "x <- m ;; k" := (io_bind m (fun x => k))
  (at level 100, m at next level, right associativity).

(** The path the script opens, relative to the working directory. *)
Definition target : string := "web/default/src/components/TokensTable.js".

Section script.
Context {St H : Type} (rt : runtime St H).

(** [sys.argv] *)
Definition get_argv : io St (list string) :=
  fun mc =>
    let v := rt_argv rt (state mc) in
    (Machine (state mc) (trace mc ++ [EvArgv v]), inr v).

(** [os.environ.get(name)] *)
Definition getenv (name : string) : io St (option string) :=
  fun mc =>
    let v := rt_getenv rt name (state mc) in
    (Machine (state mc) (trace mc ++ [EvGetenv name v]), inr v).

(** [open(p, m)] *)
Definition open_file (p : string) (m : mode) : io St H :=
  fun mc =>
    let (s, r) := rt_open rt p m (state mc) in
    (Machine s (trace mc ++ [EvOpen p m (raised r)]), r).

(** [f.read()] *)
Definition read (f : H) : io St text :=
  fun mc =>
    let (s, r) := rt_read rt f (state mc) in
    (Machine s (trace mc ++ [EvRead r]), r).

(** [f.write(data)] *)
Definition write (f : H) (data : text) : io St unit :=
  fun mc =>
    let (s, r) := rt_write rt f data (state mc) in
    (Machine s (trace mc ++ [EvWrite data (raised r)]), r).

(** [f.close()] *)
Definition close (f : H) : io St unit :=
  fun mc =>
    let (s, r) := rt_close rt f (state mc) in
    (Machine s (trace mc ++ [EvClose (raised r)]), r).

(** [with open(p, m) as f: body]. If [open] raises, the block is not
    entered. Otherwise the file is closed when the block is left, also
    when the block raised; an exception of [close] takes precedence over
    one of the block. *)
Definition with_open {A} (p : string) (m : mode) (body : H -> io St A)
    : io St A :=
  fun mc =>
    match open_file p m mc with
    | (mc1, inl e) => (mc1, inl e)
    | (mc1, inr f) =>
        let (mc2, r) := body f mc1 in
        match close f mc2 with
        | (mc3, inl e') => (mc3, inl e')
        | (mc3, inr _) => (mc3, r)
        end
    end.

(** The whole script. [import sys] puts [sys.argv] in scope; nothing
    refers to it. *)
Definition run : io St unit :=
  content <- with_open target ModeR (fun f => read f) ;;
  with_open target ModeW (fun f => write f (patch content)).

(** The script run twice in a row, the second time only if the first run
    ended normally. *)
Definition run_twice : io St unit :=
  _ <- run ;;
  run.
End script.


(** The paths the script opened, the texts its reads returned and the
    texts it handed to [write]. *)
Definition opened (tr : list event) : list (string * mode) :=
  flat_map (fun ev => match ev with EvOpen p m _ => [(p, m)] | _ => [] end) tr.

Definition texts_read (tr : list event) : list text :=
  flat_map (fun ev => match ev with EvRead (inr c) => [c] | _ => [] end) tr.

Definition texts_written (tr : list event) : list text :=
  flat_map (fun ev => match ev with EvWrite d _ => [d] | _ => [] end) tr.

(** ** A sample runtime

    One runtime among those the theorems quantify over, used to evaluate
    the script on concrete inputs: a directory tree in memory whose files
    hold bytes. Reading uses universal newlines and the ASCII codec when
    the variable [LC_ALL] is [C], a one-byte codec that accepts every byte
    otherwise; writing uses the same codec and no newline translation. *)

Inductive node : Type :=
  | File (bytes : text) (read_only : bool)
  | Dir.

Record sample_state : Type := Sample {
  sample_argv : list string;
  sample_environ : gmap string string;
  sample_files : gmap string node
}.

Definition CR : ascii := ascii_of_nat 13.

(** ["\r\n"] and a lone ["\r"] are read as ["\n"]. *)
Fixpoint universal_newlines (after_cr : bool) (bytes : text) : text :=
  match bytes with
  | [] => []
  | c :: bytes' =>
      if Ascii.eqb c CR then LF :: universal_newlines true bytes'
      else if Ascii.eqb c LF then
        if after_cr then universal_newlines false bytes'
        else LF :: universal_newlines false bytes'
      else c :: universal_newlines false bytes'
  end.

Definition is_ascii (bytes : text) : bool :=
  forallb (fun c => nat_of_ascii c <? 128) bytes.

(** What the codec of the state accepts. *)
Definition sample_codec (st : sample_state) (bytes : text) : bool :=
  match sample_environ st !! "LC_ALL" with
  | Some v => if String.eqb v "C" then is_ascii bytes else true
  | None => true
  end.

Definition sample_put (st : sample_state) (p : string) (n : node)
    : sample_state :=
  Sample (sample_argv st) (sample_environ st) (<[p := n]> (sample_files st)).

Definition sample_open (p : string) (m : mode) (st : sample_state)
    : sample_state * (exn + string) :=
  match sample_files st !! p, m with
  | None, ModeR => (st, inl (Raised "FileNotFoundError"))
  | None, ModeW => (sample_put st p (File [] false), inr p)
  | Some Dir, _ => (st, inl (Raised "IsADirectoryError"))
  | Some (File _ _), ModeR => (st, inr p)
  | Some (File _ true), ModeW => (st, inl (Raised "PermissionError"))
  | Some (File _ false), ModeW => (sample_put st p (File [] false), inr p)
  end.

Definition sample_read (f : string) (st : sample_state)
    : sample_state * (exn + text) :=
  match sample_files st !! f with
  | Some (File bytes _) =>
      if sample_codec st bytes
      then (st, inr (universal_newlines false bytes))
      else (st, inl (Raised "UnicodeDecodeError"))
  | _ => (st, inl (Raised "OSError"))
  end.

Definition sample_write (f : string) (data : text) (st : sample_state)
    : sample_state * (exn + unit) :=
  match sample_files st !! f with
  | Some (File bytes ro) =>
      if sample_codec st data
      then (sample_put st f (File (bytes ++ data) ro), inr tt)
      else (st, inl (Raised "UnicodeEncodeError"))
  | _ => (st, inl (Raised "OSError"))
  end.

Definition sample_close (f : string) (st : sample_state)
    : sample_state * (exn + unit) :=
  (st, inr tt).

Definition sample_rt : runtime sample_state string :=
  Runtime _ _ sample_argv (fun name st => sample_environ st !! name)
    sample_open sample_read sample_write sample_close.

(** ** Auxiliary notions for reasoning about [replace] *)

Fixpoint text_eqb (a b : text) : bool :=
  match a, b with
  | [], [] => true
  | x :: a', y :: b' => if Ascii.eqb x y then text_eqb a' b' else false
  | _, _ => false
  end.

(** [sep.join(segs)] *)
Fixpoint join (sep : text) (segs : list text) : text :=
  match segs with
  | [] => []
  | [s] => s
  | s :: segs' => s ++ sep ++ join sep segs'
  end.

(** Number of non-overlapping occurrences found by the left-to-right scan:
    [s.count(old)] for a non-empty [old]. *)
Fixpoint count_from (old : text) (skip : nat) (s : text) : nat :=
  match s with
  | [] => 0
  | _ :: s' =>
      match skip with
      | S k => count_from old k s'
      | O =>
          if startswith s old
          then S (count_from old (length old - 1) s')
          else count_from old 0 s'
      end
  end.

Definition count (s old : text) : nat := count_from old 0 s.

(** Some non-empty suffix of [a] is a prefix of [b]. *)
Fixpoint overlap (a b : text) : bool :=
  match a with
  | [] => false
  | _ :: a' => if startswith b a then true else overlap a' b
  end.

(** Some proper non-empty suffix of [a] is a prefix of [b]. *)
Definition chains (a b : text) : bool :=
  match a with
  | [] => false
  | _ :: a' => overlap a' b
  end.

(** A literal that does not overlap a shifted copy of itself. *)
Definition unbordered (a : text) : bool := negb (chains a a).

(** [p] and [l] cannot share characters in any text: neither occurs in the
    other and neither ends with a beginning of the other. *)
Definition apart (p l : text) : bool :=
  negb (contains l p) && negb (contains p l) &&
  negb (chains p l) && negb (chains l p).

(** A surrounding text that holds none of the five old literals. *)
Definition inert (t : text) : bool :=
  forallb (fun r => negb (contains t r.1)) rules.

(** A text laid out as a leading text followed by blocks, each block
    followed by a text. *)
Definition layout (t0 : text) (ps : list (text * text)) : text :=
  t0 ++ flat_map (fun bt => bt.1 ++ bt.2) ps.

(** What rule [r] makes of a block [l] that is either its old literal or
    apart from it. *)
Definition swap (r : text * text) (l : text) : text :=
  if text_eqb l r.1 then r.2 else l.

Definition settle (rs : list (text * text)) (l : text) : text :=
  fold_left (fun l r => swap r l) rs l.

(** Every rule of [rs], at the time it runs, finds each block of [blocks]
    either equal to its old literal or apart from it, and its old literal
    is non-empty and unbordered. *)
Fixpoint compatible (rs : list (text * text)) (blocks : list text) : bool :=
  match rs with
  | [] => true
  | r :: rs' =>
      negb (text_eqb r.1 []) && unbordered r.1 &&
      forallb (fun l => text_eqb l r.1 || apart r.1 l) blocks &&
      compatible rs' (map (swap r) blocks)
  end.

(** The old literal of every rule is non-empty and apart from the new
    literal of that rule and of every later rule. *)
Fixpoint sealed (rs : list (text * text)) : bool :=
  match rs with
  | [] => true
  | r :: rs' =>
      negb (text_eqb r.1 []) &&
      forallb (fun r' => apart r.1 r'.2) (r :: rs') &&
      sealed rs'
  end.

(** ** The parts of [new_d]

    The three parts of the new delete control: the button given as the
    popup's [trigger], the properties of the popup that follow it, and the
    button placed inside the popup. [new_d_parts] rebuilds [new_d] from
    them. *)

Definition delete_trigger : text :=
  block
    [ "                      <Button";
      "                        size='small'";
      "                        negative";
      "                        aria-label={t('common:delete', 'Delete')}";
      "                      >";
      "                        <Icon name='trash' />";
      "                      </Button>" ].

Definition delete_popup_props : text :=
  block
    [ "                    on='click'";
      "                    flowing";
      "                    hoverable" ].

Definition delete_confirm : text :=
  block
    [ "                    <Button";
      "                      negative";
      "                      onClick={() => {";
      "                        manageToken(token.id, 'delete', idx);";
      "                      }}";
      "                    >";
      "                      {t('token.confirm_delete', 'Delete Token')}";
      "                    </Button>" ].

Definition new_d_parts : text :=
  join [LF]
    [ chars "                  <Popup";
      chars "                    trigger={";
      delete_trigger;
      chars "                    }";
      delete_popup_props;
      chars "                  >";
      delete_confirm;
      chars "                  </Popup>" ].

(** The rules of [rs] do not interfere with one another: every old literal
    is non-empty and unbordered, is apart from every new literal, and is
    apart from the old literal of every other rule (two rules with the
    same old literal are the same rule). *)
Definition independent (rs : list (text * text)) : bool :=
  forallb
    (fun r =>
       negb (text_eqb r.1 []) && unbordered r.1 &&
       forallb
         (fun r' =>
            (if text_eqb r'.1 r.1 then text_eqb r'.2 r.2 else apart r.1 r'.1)
            && apart r.1 r'.2)
         rs)
    rs.

(** * Properties of the string built-ins *)

Section builtins.
Implicit Types s old new pre post p l a b : text.

Lemma text_eqb_eq a b : text_eqb a b = true <-> a = b.
Proof.
  revert b. induction a as [|x a IH]; intros [|y b]; simpl; try easy.
  destruct (Ascii.eqb_spec x y) as [->|Hne].
  - rewrite IH. split; [by intros ->|by intros [= ->]].
  - split; [done|]. intros [= ? ?]. done.
Qed.

Lemma text_eqb_neq a b : text_eqb a b = false <-> a <> b.
Proof.
  rewrite <- text_eqb_eq. destruct (text_eqb a b); split; congruence.
Qed.

(** [startswith] holds exactly of the texts that begin with [old]. *)
Lemma startswith_iff s old :
  startswith s old = true <-> exists rest, s = old ++ rest.
Proof.
  revert s. induction old as [|a old IH]; intros s; simpl.
  - split; [intros _; exists s; reflexivity | reflexivity].
  - destruct s as [|c s].
    + split; [discriminate | intros [rest [=]]].
    + destruct (Ascii.eqb_spec a c) as [->|Hne].
      * rewrite IH. split.
        -- intros [rest ->]. exists rest. reflexivity.
        -- intros [rest [= ->]]. eauto.
      * split; [done|]. intros [rest [= ? ?]]. done.
Qed.

Lemma startswith_app old rest : startswith (old ++ rest) old = true.
Proof. apply startswith_iff. eauto. Qed.

Lemma startswith_length s old :
  startswith s old = true -> length old <= length s.
Proof.
  intros [rest ->]%startswith_iff. rewrite length_app. lia.
Qed.

(** [contains] holds exactly of the texts with an occurrence of [old]. *)
Lemma contains_iff s old :
  contains s old = true <-> exists pre post, s = pre ++ old ++ post.
Proof.
  induction s as [|c s IH]; cbn [contains].
  - destruct (startswith [] old) eqn:E.
    + apply startswith_iff in E as [rest E]. split; [|done].
      intros _. exists [], rest. exact E.
    + split; [done|]. intros (pre & post & H). symmetry in H.
      apply app_nil in H as [-> H].
      assert (startswith [] old = true) as E'; [|congruence].
      apply startswith_iff. exists post. symmetry. exact H.
  - destruct (startswith (c :: s) old) eqn:E.
    + apply startswith_iff in E as [rest E]. split; [|done].
      intros _. exists [], rest. exact E.
    + rewrite IH. split.
      * intros (pre & post & ->). exists (c :: pre), post. reflexivity.
      * intros ([|x pre] & post & H); simpl in H.
        -- assert (startswith (c :: s) old = true) as E'; [|congruence].
           apply startswith_iff. eauto.
        -- injection H as -> ->. eauto.
Qed.

Lemma contains_absent s old :
  contains s old = false <-> forall pre post, s <> pre ++ old ++ post.
Proof.
  split.
  - intros H pre post E.
    assert (contains s old = true) by (apply contains_iff; eauto).
    congruence.
  - intros H. destruct (contains s old) eqn:E; [|reflexivity].
    apply contains_iff in E as (pre & post & E). destruct (H _ _ E).
Qed.

Lemma contains_length s old :
  contains s old = true -> length old <= length s.
Proof.
  intros (pre & post & ->)%contains_iff. rewrite !length_app. lia.
Qed.

Lemma contains_self_app pre old post : contains (pre ++ old ++ post) old = true.
Proof. apply contains_iff. eauto. Qed.

(** A text without [p] has no part with [p]. *)
Lemma contains_part a s b p :
  contains (a ++ s ++ b) p = false -> contains s p = false.
Proof.
  intros H. destruct (contains s p) eqn:E; [|reflexivity].
  apply contains_iff in E as (pre & post & ->).
  rewrite <- H. symmetry. apply contains_iff.
  exists (a ++ pre), (post ++ b). by rewrite <- !(assoc_L (++)).
Qed.

Lemma contains_app_l a b p : contains (a ++ b) p = false -> contains a p = false.
Proof.
  intros H. apply (contains_part [] a b). exact H.
Qed.

Lemma contains_app_r a b p : contains (a ++ b) p = false -> contains b p = false.
Proof.
  intros H. apply (contains_part a b []). by rewrite app_nil_r.
Qed.

(** ** Overlaps *)

Lemma overlap_app u v w : v <> [] -> overlap (u ++ v) (v ++ w) = true.
Proof.
  intros Hv. induction u as [|x u IH]; cbn [app overlap].
  - destruct v as [|c v]; [done|]. cbn [overlap].
    by rewrite startswith_app.
  - rewrite IH. by destruct (startswith (v ++ w) (x :: u ++ v)).
Qed.

Lemma chains_false a b :
  chains a b = false ->
  forall u v w, u <> [] -> v <> [] -> a = u ++ v -> b = v ++ w -> False.
Proof.
  intros H u v w Hu Hv -> ->. destruct u as [|x u]; [done|].
  simpl in H. by rewrite overlap_app in H.
Qed.

(** An occurrence of [p] in [x ++ y] lies in [x], lies in [y], or
    straddles the seam. *)
Lemma occurrence_app x y a p b :
  x ++ y = a ++ p ++ b ->
  (exists k, x = a ++ p ++ k) \/
  (exists k, y = k ++ p ++ b) \/
  (exists u v, u <> [] /\ v <> [] /\ p = u ++ v /\
                     x = a ++ u /\ y = v ++ b).
Proof.
  intros H. apply app_eq_inv in H as [(k & -> & H) | (k & -> & ->)].
  - apply app_eq_inv in H as [(k' & -> & ->) | (k' & -> & ->)].
    + destruct k as [|c k].
      * right. left. exists []. reflexivity.
      * destruct k' as [|c' k'].
        -- left. exists []. by rewrite !app_nil_r.
        -- right. right. exists (c :: k), (c' :: k').
           repeat split; done.
    + left. exists k'. reflexivity.
  - right. left. exists k. reflexivity.
Qed.

(** An unbordered literal that is absent from [pre] does not start
    inside [pre] either, whatever follows. *)
Lemma unbordered_leftmost old pre :
  unbordered old = true ->
  contains pre old = false ->
  contains (pre ++ removelast old) old = false.
Proof.
  intros Hub Hpre. apply contains_absent. intros a b H.
  apply negb_true_iff in Hub.
  apply occurrence_app in H as [(k & ->) | [(k & H) | H]].
  - by rewrite contains_self_app in Hpre.
  - apply (f_equal length) in H. destruct old as [|c old].
    + by rewrite (proj2 (contains_iff pre []))
        in Hpre by (exists [], pre; reflexivity).
    + rewrite !length_app in H.
      assert (length (removelast (c :: old)) < length (c :: old)); [|lia].
      rewrite (app_removelast_last c (l := c :: old)) at 2 by done.
      rewrite length_app. simpl. lia.
  - destruct H as (u & v & Hu & Hv & Hold & -> & Hrl).
    destruct old as [|c old]; [by destruct u|].
    apply (chains_false _ _ Hub u v (b ++ [List.last (c :: old) c])); try done.
    rewrite (app_removelast_last c (l := c :: old)) at 1 by done.
    rewrite Hrl. by rewrite <- (assoc_L (++)).
Qed.

(** A literal [p] cannot occur across a block [l] it is apart from. *)
Lemma apart_block p l x y :
  apart p l = true ->
  contains x p = false -> contains y p = false ->
  contains (x ++ l ++ y) p = false.
Proof.
  unfold apart. rewrite !andb_true_iff, !negb_true_iff.
  intros [[[Hlp Hpl] Hc1] Hc2] Hx Hy.
  apply contains_absent. intros a b H.
  apply occurrence_app in H as [(k & ->) | [(k & H) | H]].
  - by rewrite contains_self_app in Hx.
  - apply occurrence_app in H as [(k' & ->) | [(k' & ->) | H]].
    + by rewrite contains_self_app in Hlp.
    + by rewrite contains_self_app in Hy.
    + destruct H as (u & v & Hu & Hv & -> & -> & ->).
      destruct k as [|c k].
      * pose proof (contains_self_app [] u v) as E. simpl in *. congruence.
      * apply (chains_false _ _ Hc2 (c :: k) u v); done.
  - destruct H as (u & v & Hu & Hv & -> & -> & H).
    symmetry in H.
    apply app_eq_inv in H as [(k & -> & ->) | (k & -> & ->)].
    + by rewrite (contains_self_app u l k) in Hpl.
    + apply (chains_false _ _ Hc1 u v k); done.
Qed.
End builtins.
(** * Properties of [replace] *)

Section replace.
Implicit Types s old new pre post p l a b : text.

(** The scan on small inputs: every match is replaced, matches do not
    overlap and are taken from the left, an empty [old] matches at every
    position. *)
Example replace_every_match :
  replace (chars "aXbXXc") (chars "X") (chars "yz") = chars "ayzbyzyzc".
Proof. reflexivity. Qed.

Example replace_leftmost_first :
  replace (chars "aaa") (chars "aa") (chars "b") = chars "ba".
Proof. reflexivity. Qed.

Example replace_empty_old :
  replace (chars "abc") [] (chars "-") = chars "-a-b-c-".
Proof. reflexivity. Qed.

Lemma replace_from_skip old new k s :
  replace_from old new k s = replace_from old new 0 (drop k s).
Proof.
  revert k. induction s as [|c s IH]; intros [|k]; simpl; auto.
Qed.

Lemma replace_nil old new : old <> [] -> replace [] old new = [].
Proof. by destruct old. Qed.

(** The scan, one step at a time. *)
Lemma replace_cons c s old new :
  old <> [] ->
  replace (c :: s) old new =
    if startswith (c :: s) old
    then new ++ replace (drop (length old) (c :: s)) old new
    else c :: replace s old new.
Proof.
  destruct old as [|a old]; [done|]. intros _. unfold replace.
  cbn [replace_from]. destruct (startswith (c :: s) (a :: old)); [|done].
  rewrite replace_from_skip. simpl. by rewrite Nat.sub_0_r.
Qed.

Lemma replace_hit old new s :
  old <> [] -> replace (old ++ s) old new = new ++ replace s old new.
Proof.
  intros Hne. destruct old as [|a old']; [done|].
  change ((a :: old') ++ s) with (a :: (old' ++ s)).
  rewrite replace_cons by done.
  change (a :: old' ++ s) with ((a :: old') ++ s).
  by rewrite startswith_app, drop_app_length.
Qed.

Lemma replace_miss c s old new :
  startswith (c :: s) old = false ->
  replace (c :: s) old new = c :: replace s old new.
Proof.
  intros H. destruct old as [|a old]; [done|].
  rewrite replace_cons by done. by rewrite H.
Qed.

(** Without an occurrence of [old] the text comes back as it is. *)
Lemma replace_absent s old new :
  contains s old = false -> replace s old new = s.
Proof.
  induction s as [|c s IH]; intros H.
  - destruct old; [done|]. reflexivity.
  - cbn [contains] in H.
    destruct (startswith (c :: s) old) eqn:H1; [done|].
    rewrite replace_miss by done. by rewrite IH.
Qed.

(** Only the first [length old] characters matter to [startswith]. *)
Lemma startswith_short s t old :
  length old <= length s -> startswith (s ++ t) old = startswith s old.
Proof.
  revert s. induction old as [|a old IH]; intros [|c s] H; simpl in *;
    try done; try lia.
  destruct (Ascii.eqb a c); [|done]. apply IH. lia.
Qed.

Lemma split_last old :
  old <> [] ->
  exists z, old = removelast old ++ [z] /\
            length old = S (length (removelast old)).
Proof.
  intros H. destruct old as [|a old]; [done|].
  exists (List.last (a :: old) a).
  assert (a :: old = removelast (a :: old) ++ [List.last (a :: old) a]) as E
    by (by apply app_removelast_last).
  split; [done|]. rewrite E at 1. rewrite length_app. simpl. lia.
Qed.

Lemma startswith_leftmost c pre old post :
  old <> [] ->
  startswith (c :: pre ++ old ++ post) old =
  startswith (c :: pre ++ removelast old) old.
Proof.
  intros (z & E & Hlen)%split_last.
  rewrite E at 1.
  change (c :: pre ++ (removelast old ++ [z]) ++ post)
    with ((c :: pre) ++ (removelast old ++ [z]) ++ post).
  rewrite <- !(assoc_L (++)), (assoc_L (++) (c :: pre)).
  apply startswith_short. simpl. rewrite length_app. lia.
Qed.

(** The first match is the leftmost occurrence. *)
Lemma replace_leftmost pre old post new :
  old <> [] ->
  contains (pre ++ removelast old) old = false ->
  replace (pre ++ old ++ post) old new = pre ++ new ++ replace post old new.
Proof.
  intros Hne. induction pre as [|c pre IH]; intros H.
  - simpl. by apply replace_hit.
  - cbn [app contains] in H.
    destruct (startswith (c :: pre ++ removelast old) old) eqn:H1; [done|].
    simpl. rewrite replace_miss, IH; [done..|].
    by rewrite startswith_leftmost.
Qed.

(** A text with an occurrence of [old] splits at its leftmost one. *)
Lemma leftmost_split s old :
  old <> [] ->
  contains s old = true ->
  exists pre post,
    s = pre ++ old ++ post /\ contains (pre ++ removelast old) old = false.
Proof.
  intros Hne. induction s as [|c s IH]; intros H.
  - apply contains_length in H. destruct old; [done|]. simpl in H. lia.
  - destruct (startswith (c :: s) old) eqn:E.
    + apply startswith_iff in E as [rest E]. exists [], rest.
      split; [done|]. cbn [app].
      destruct (contains (removelast old) old) eqn:C; [|done].
      apply contains_length in C.
      destruct (split_last old Hne) as (z & _ & Hlen). lia.
    + cbn [contains] in H. rewrite E in H.
      destruct (IH H) as (pre & post & -> & Hl).
      exists (c :: pre), post. split; [done|]. cbn [app contains].
      by rewrite <- (startswith_leftmost c pre old post), E.
Qed.

(** For an unbordered literal every occurrence is a match: the scan is
    compositional around it. *)
Lemma replace_around a old b new :
  old <> [] -> unbordered old = true ->
  replace (a ++ old ++ b) old new =
    replace a old new ++ new ++ replace b old new.
Proof.
  intros Hne Hub. remember (length a) as n eqn:Hn.
  revert a Hn. induction n as [n IH] using lt_wf_ind. intros a ->.
  destruct (contains a old) eqn:C.
  - apply leftmost_split in C as (pre & post & -> & Hl); [|done].
    rewrite <- !(assoc_L (++)).
    rewrite !(replace_leftmost pre) by done.
    rewrite (IH (length post)); [|rewrite !length_app; destruct old; [done|simpl; lia]|done].
    by rewrite <- !(assoc_L (++)).
  - rewrite (replace_absent a) by done.
    apply replace_leftmost; [done|]. by apply unbordered_leftmost.
Qed.

(** All the matches of an unbordered literal are replaced. *)
Lemma replace_join old new segs :
  old <> [] -> unbordered old = true ->
  Forall (fun seg => contains seg old = false) segs ->
  replace (join old segs) old new = join new segs.
Proof.
  intros Hne Hub. induction 1 as [|seg segs Hseg Hsegs IH].
  - by apply replace_nil.
  - destruct segs as [|seg' segs].
    + by apply replace_absent.
    + change (join old (seg :: seg' :: segs))
        with (seg ++ old ++ join old (seg' :: segs)).
      rewrite replace_around, IH, replace_absent by done. done.
Qed.

(** A literal that is apart from [new] is not created by the
    substitution; [old] itself is eliminated if it is apart from [new]. *)
Lemma replace_free p s old new :
  old <> [] -> apart p new = true ->
  p = old \/ contains s p = false ->
  contains (replace s old new) p = false.
Proof.
  intros Hne Hap. remember (length s) as n eqn:Hn.
  revert s Hn. induction n as [n IH] using lt_wf_ind. intros s -> Hp.
  destruct (contains s old) eqn:C.
  - apply leftmost_split in C as (pre & post & -> & Hl); [|done].
    rewrite replace_leftmost by done.
    apply apart_block; [done|..].
    + destruct Hp as [->|Hp].
      * by apply contains_app_l in Hl.
      * by apply contains_app_l in Hp.
    + apply (IH (length post)); [|done|].
      * rewrite !length_app. destruct old; [done|simpl; lia].
      * destruct Hp as [->|Hp]; [by left|right].
        rewrite (assoc_L (++)) in Hp. by apply contains_app_r in Hp.
  - rewrite replace_absent by done.
    destruct Hp as [->|Hp]; done.
Qed.

(** A substitution by a literal at least as long never shortens. *)
Lemma replace_length s old new :
  length old <= length new -> length s <= length (replace s old new).
Proof.
  intros Hlen. destruct old as [|a old].
  - unfold replace. rewrite length_app.
    assert (length s <= length (flat_map (fun c => c :: new) s)); [|lia].
    induction s as [|c s IH]; simpl; [lia|]. rewrite length_app. lia.
  - remember (length s) as n eqn:Hn.
    revert s Hn. induction n as [n IH] using lt_wf_ind. intros s ->.
    destruct s as [|c s]; [simpl; lia|].
    rewrite replace_cons by done.
    destruct (startswith (c :: s) (a :: old)) eqn:E.
    + apply startswith_length in E. rewrite length_app.
      pose proof (IH (length (drop (length (a :: old)) (c :: s)))) as H.
      specialize (H ltac:(rewrite length_drop; simpl; lia) _ eq_refl).
      rewrite length_drop in H. lia.
    + specialize (IH (length s) ltac:(simpl; lia) s eq_refl).
      cbn [length]. lia.
Qed.
End replace.
(** * Properties of rule sequences *)

Section sequences.
Implicit Types (s buf t p l : text) (r : text * text)
  (rs : list (text * text)).

Lemma nonempty_eqb l : negb (text_eqb l []) = true -> l <> [].
Proof. intros H ->. done. Qed.

(** Rules whose old literals are all absent change nothing. *)
Lemma apply_rules_absent rs buf :
  Forall (fun r => contains buf r.1 = false) rs -> apply_rules rs buf = buf.
Proof.
  induction 1 as [|r rs Hr _ IH]; simpl; [done|].
  by rewrite replace_absent.
Qed.

(** Rules whose new literals are apart from [p] do not create [p]. *)
Lemma apply_rules_free p rs buf :
  Forall (fun r => negb (text_eqb r.1 []) = true /\ apart p r.2 = true) rs ->
  contains buf p = false ->
  contains (apply_rules rs buf) p = false.
Proof.
  intros H. revert buf. induction H as [|r rs [Hne Hap] _ IH]; intros buf Hp.
  - done.
  - simpl. apply IH. apply replace_free; auto using nonempty_eqb.
Qed.

Lemma sealed_tail r rs :
  sealed (r :: rs) = true ->
  Forall (fun r' => negb (text_eqb r'.1 []) = true /\ apart r.1 r'.2 = true) rs.
Proof.
  revert r. induction rs as [|r' rs IH]; intros r H; [constructor|].
  cbn [sealed forallb] in H. rewrite !andb_true_iff in H.
  destruct H as [[Hne [Hrr [Hrr' Hrs]]] [[Hne' [Hr' Hrs']] Hs]].
  constructor; [done|].
  apply IH. cbn [sealed forallb]. rewrite !andb_true_iff. done.
Qed.

(** After a sealed rule sequence none of its old literals is left. *)
Lemma sealed_clears rs buf :
  sealed rs = true ->
  Forall (fun r => contains (apply_rules rs buf) r.1 = false) rs.
Proof.
  revert buf. induction rs as [|r rs IH]; intros buf H; [constructor|].
  pose proof (sealed_tail _ _ H) as Htail.
  cbn [sealed forallb] in H. rewrite !andb_true_iff in H.
  destruct H as [[Hne [Hrr _]] Hs]. constructor.
  - simpl. apply apply_rules_free; [done|].
    apply replace_free; auto using nonempty_eqb.
  - simpl. by apply IH.
Qed.

Lemma sealed_idempotent rs buf :
  sealed rs = true ->
  apply_rules rs (apply_rules rs buf) = apply_rules rs buf.
Proof.
  intros H. apply apply_rules_absent. by apply sealed_clears.
Qed.

Lemma apply_rules_length rs buf :
  Forall (fun r => length r.1 <= length r.2) rs ->
  length buf <= length (apply_rules rs buf).
Proof.
  intros H. revert buf. induction H as [|r rs Hr _ IH]; intros buf; simpl.
  - lia.
  - etrans; [|apply IH]. by apply replace_length.
Qed.

(** One unbordered rule over a layout whose texts lack its old literal
    and whose blocks are that literal or apart from it. *)
Lemma replace_layout r t0 ps :
  r.1 <> [] -> unbordered r.1 = true ->
  contains t0 r.1 = false ->
  Forall (fun bt => (text_eqb bt.1 r.1 || apart r.1 bt.1) = true /\
                    contains bt.2 r.1 = false) ps ->
  replace (layout t0 ps) r.1 r.2 =
    layout t0 (map (fun bt => (swap r bt.1, bt.2)) ps).
Proof.
  intros Hne Hub Ht0 Hps. revert t0 Ht0.
  induction Hps as [|[l t] ps [Hl Ht] _ IH]; intros t0 Ht0.
  - unfold layout. simpl. rewrite app_nil_r. by apply replace_absent.
  - unfold layout, swap in *. cbn [map flat_map fst snd] in *.
    destruct (text_eqb l r.1) eqn:E.
    + apply text_eqb_eq in E as ->.
      rewrite <- !(assoc_L (++)).
      rewrite replace_around, IH, (replace_absent t0) by done. done.
    + simpl in Hl.
      assert (forall x, t0 ++ (l ++ t) ++ x = (t0 ++ l ++ t) ++ x) as A
        by (intros x; by rewrite <- !(assoc_L (++))).
      rewrite !A. apply IH. by apply apart_block.
Qed.

(** A compatible rule sequence over a layout settles every block and
    leaves the texts alone. *)
Lemma apply_rules_layout rs t0 ps :
  compatible rs (map fst ps) = true ->
  Forall (fun t => Forall (fun r => contains t r.1 = false) rs)
         (t0 :: map snd ps) ->
  apply_rules rs (layout t0 ps) =
    layout t0 (map (fun bt => (settle rs bt.1, bt.2)) ps).
Proof.
  revert ps. induction rs as [|r rs IH]; intros ps Hc Ht.
  - simpl. f_equal. induction ps as [|[l t] ps IHps]; [done|].
    simpl. f_equal. apply IHps; [done|].
    inversion Ht as [|? ? H0 Hrest]; subst. constructor; [done|].
    by inversion Hrest.
  - cbn [compatible] in Hc. rewrite !andb_true_iff in Hc.
    destruct Hc as [[[Hne Hub] Hbl] Hc].
    cbn [apply_rules]. rewrite replace_layout.
    + rewrite IH.
      * f_equal. rewrite map_map. done.
      * by rewrite map_map in *.
      * rewrite map_map. cbn [snd].
        eapply Forall_impl; [exact Ht|]. intros t H. by inversion H.
    + by apply nonempty_eqb.
    + done.
    + inversion Ht as [|? ? H0 _]; subst. by inversion H0.
    + inversion Ht as [|? ? _ Hrest]; subst. clear -Hbl Hrest.
      induction ps as [|[l t] ps IHps]; [constructor|].
      cbn [map forallb fst snd] in *. apply andb_true_iff in Hbl as [H1 H2].
      inversion Hrest as [|? ? Hh Htl]; subst. constructor.
      * split; [done|]. by inversion Hh.
      * by apply IHps.
Qed.
(** Compatibility only depends on which blocks there are. *)
Lemma compatible_subset rs (bs bs' : list text) :
  (forall b, In b bs' -> In b bs) ->
  compatible rs bs = true -> compatible rs bs' = true.
Proof.
  revert bs bs'. induction rs as [|r rs IH]; intros bs bs' Hsub; [done|].
  cbn [compatible]. rewrite !andb_true_iff.
  intros [[[Hne Hub] Hbl] Hc]. repeat split; [done..| |].
  - rewrite forallb_forall in *. auto.
  - apply (IH (map (swap r) bs)); [|done].
    intros b (b0 & <- & Hb0)%in_map_iff. apply in_map. auto.
Qed.
End sequences.
(** * Facts about the five literals, by evaluation *)

Lemma rules_well_formed :
  forallb (fun r => negb (text_eqb r.1 []) && unbordered r.1) rules = true.
Proof. vm_compute. reflexivity. Qed.

Lemma rules_compatible :
  compatible rules [old_v; old_c; old_e; old_ed; old_d] = true.
Proof. vm_compute. reflexivity. Qed.

Lemma rules_sealed : sealed rules = true.
Proof. vm_compute. reflexivity. Qed.

Lemma rules_settle :
  settle rules old_v = new_v /\ settle rules old_c = new_c /\
  settle rules old_e = new_e /\ settle rules old_ed = new_ed /\
  settle rules old_d = new_d.
Proof. repeat split; vm_compute; reflexivity. Qed.

Lemma rules_grow :
  forallb (fun r => length r.1 <? length r.2) rules = true.
Proof. vm_compute. reflexivity. Qed.

Lemma rule_nonempty r : In r rules -> r.1 <> [].
Proof.
  intros H. pose proof rules_well_formed as W.
  rewrite forallb_forall in W. apply W in H.
  apply andb_true_iff in H as [H _]. by apply nonempty_eqb.
Qed.

Lemma rule_unbordered r : In r rules -> unbordered r.1 = true.
Proof.
  intros H. pose proof rules_well_formed as W.
  rewrite forallb_forall in W. apply W in H.
  by apply andb_true_iff in H as [_ H].
Qed.

Lemma inert_absent t :
  inert t = true -> Forall (fun r => contains t r.1 = false) rules.
Proof.
  unfold inert. rewrite forallb_forall. intros H.
  apply List.Forall_forall. intros r Hr. apply negb_true_iff. by apply H.
Qed.

Lemma patch_apply_rules buf :
  patch buf = apply_rules rules buf.
Proof. reflexivity. Qed.

(** Each rule's old block ends up as the rule's new block. *)
Lemma settle_rule r : In r rules -> settle rules r.1 = r.2.
Proof.
  destruct rules_settle as (Ev & Ec & Ee & Eed & Ed).
  intros [<-|[<-|[<-|[<-|[<-|[]]]]]]; done.
Qed.

(** The patcher over any layout of old blocks and inert texts. *)
Lemma patch_layout t0 (ps : list ((text * text) * text)) :
  Forall (fun rt => In rt.1 rules /\ inert rt.2 = true) ps ->
  inert t0 = true ->
  patch (layout t0 (map (fun rt => (rt.1.1, rt.2)) ps)) =
    layout t0 (map (fun rt => (rt.1.2, rt.2)) ps).
Proof.
  intros Hps Ht0. rewrite patch_apply_rules, apply_rules_layout.
  - f_equal. rewrite map_map. apply map_ext_in.
    intros rt Hrt. rewrite List.Forall_forall in Hps.
    cbn [fst snd]. f_equal. apply settle_rule. by apply Hps.
  - rewrite map_map. cbn [fst].
    apply (compatible_subset rules [old_v; old_c; old_e; old_ed; old_d]);
      [|exact rules_compatible].
    intros b (rt & <- & Hrt)%in_map_iff.
    rewrite List.Forall_forall in Hps. apply Hps in Hrt as [Hr _].
    change [old_v; old_c; old_e; old_ed; old_d] with (map fst rules).
    by apply in_map.
  - rewrite map_map. cbn [snd]. constructor; [by apply inert_absent|].
    apply List.Forall_forall. intros t (rt & <- & Hrt)%in_map_iff.
    rewrite List.Forall_forall in Hps. apply Hps in Hrt as [_ Ht].
    by apply inert_absent.
Qed.

(** * The script over an arbitrary runtime *)

(** Case analysis on everything the runtime may answer during a run. *)
Ltac run_cases rt :=
  unfold run_twice, run, io_bind, with_open, open_file, read, write,
    close;
  cbn -[patch];
  repeat
    (match goal with
     | |- context [rt_open rt ?p ?m ?s] =>
         destruct (rt_open rt p m s) as [? [?|?]]
     | |- context [rt_read rt ?f ?s] =>
         destruct (rt_read rt f s) as [? [?|?]]
     | |- context [rt_write rt ?f ?d ?s] =>
         destruct (rt_write rt f d s) as [? [?|?]]
     | |- context [rt_close rt ?f ?s] =>
         destruct (rt_close rt f s) as [? [?|?]]
     end; cbn -[patch]).

(** A run that ends normally has added exactly the six operations to the
    trace. *)
Lemma run_normal {St H : Type} (rt : runtime St H) (mc : machine St) :
  (run rt mc).2 = inr tt ->
  exists c,
    trace (run rt mc).1 =
      trace mc ++
      [EvOpen target ModeR None; EvRead (inr c); EvClose None;
       EvOpen target ModeW None; EvWrite (patch c) None; EvClose None].
Proof.
  run_cases rt; try discriminate. intros _. eexists.
  by rewrite <- !(assoc_L (++)).
Qed.

(** The script on the sample runtime. A file with carriage returns and no
    old literal is read with universal newlines and written back with
    line feeds only. *)
Example sample_newlines :
  let st :=
    Sample [] ∅ {[ target := File (chars "<td>" ++ [CR; LF] ++
                                   chars "</td>" ++ [CR; LF]) false ]} in
  let out := run sample_rt (Machine st []) in
  out.2 = inr tt /\
  sample_files (state out.1) !! target =
    Some (File (chars "<td>" ++ [LF] ++ chars "</td>" ++ [LF]) false).
Proof. vm_compute. split; reflexivity. Qed.

(** A byte the codec rejects: the read raises, and the file is not opened
    for writing. *)
Example sample_undecodable :
  let st :=
    Sample [] {[ "LC_ALL" := "C" ]}
      {[ target := File (chars "<td>" ++ [ascii_of_nat 255]) false ]} in
  let out := run sample_rt (Machine st []) in
  out.2 = inl (Raised "UnicodeDecodeError") /\
  opened (trace out.1) = [(target, ModeR)] /\
  sample_files (state out.1) !! target = sample_files st !! target.
Proof. vm_compute. repeat split; reflexivity. Qed.

(** A read-only file: the second [open] raises after a successful read. *)
Example sample_read_only :
  let st := Sample [] ∅ {[ target := File old_c true ]} in
  let out := run sample_rt (Machine st []) in
  out.2 = inl (Raised "PermissionError") /\
  texts_written (trace out.1) = [] /\
  sample_files (state out.1) !! target = Some (File old_c true).
Proof. vm_compute. repeat split; reflexivity. Qed.

(** A directory in place of the file. *)
Example sample_directory :
  let st := Sample [] ∅ {[ target := Dir ]} in
  let out := run sample_rt (Machine st []) in
  out.2 = inl (Raised "IsADirectoryError") /\
  trace out.1 = [EvOpen target ModeR (Some (Raised "IsADirectoryError"))].
Proof. vm_compute. split; reflexivity. Qed.

(** * The claims *)

(** C1. For each of the five rules, an occurrence of the rule's old literal
    at any place of the buffer is replaced by the rule's new literal, and
    the text before and after it is processed on its own; when that text
    holds no further occurrence, the result is the buffer with the old
    literal exchanged for the new one and every other character as it
    was. *)
Theorem rule_replaces_literal (r : text * text) :
  In r rules ->
  forall pre post : text,
    replace (pre ++ r.1 ++ post) r.1 r.2 =
      replace pre r.1 r.2 ++ r.2 ++ replace post r.1 r.2 /\
    (contains pre r.1 = false -> contains post r.1 = false ->
     replace (pre ++ r.1 ++ post) r.1 r.2 = pre ++ r.2 ++ post).
Proof.
  intros Hr pre post.
  pose proof (rule_nonempty r Hr) as Hne.
  pose proof (rule_unbordered r Hr) as Hub.
  split.
  - by apply replace_around.
  - intros Hpre Hpost.
    rewrite replace_around by done. by rewrite !replace_absent.
Qed.

Lemma rule_replaces_literal_witness :
  replace (chars "<td>" ++ old_c ++ chars "</td>") old_c new_c =
    chars "<td>" ++ new_c ++ chars "</td>".
Proof.
  apply (rule_replaces_literal (old_c, new_c)).
  - simpl. tauto.
  - vm_compute. reflexivity.
  - vm_compute. reflexivity.
Defined.

(** C2. A rule whose old literal does not occur in the buffer returns the
    buffer unchanged, and a buffer in which none of the five old literals
    occurs is returned unchanged by the patcher. Both are total functions:
    a missing literal raises nothing. *)
Theorem absent_literal_is_noop :
  (forall (r : text * text) (buf : text),
     In r rules -> contains buf r.1 = false -> replace buf r.1 r.2 = buf) /\
  (forall buf : text, inert buf = true -> patch buf = buf).
Proof.
  split.
  - intros r buf _ H. by apply replace_absent.
  - intros buf H. rewrite patch_apply_rules.
    apply apply_rules_absent. by apply inert_absent.
Qed.

Lemma absent_literal_is_noop_witness :
  replace (chars "<Popup />") old_d new_d = chars "<Popup />" /\
  patch (chars "<Popup />") = chars "<Popup />".
Proof.
  destruct absent_literal_is_noop as (H1 & H2).
  split.
  - apply (H1 (old_d, new_d)); [simpl; tauto | vm_compute; reflexivity].
  - apply H2. vm_compute. reflexivity.
Defined.

(** C3, as stated, fails: surrounding text that itself holds an old
    literal is not left untouched. Here the text before the first block is
    a second copy of [old_v] and the other surrounding texts are empty:
    the patcher rewrites that copy as well, so the result is not the
    buffer with only the five blocks exchanged. *)
Lemma five_blocks_arbitrary_text_counterexample :
  patch (old_v ++ old_v ++ old_c ++ old_e ++ old_ed ++ old_d) =
    new_v ++ new_v ++ new_c ++ new_e ++ new_ed ++ new_d /\
  patch (old_v ++ old_v ++ old_c ++ old_e ++ old_ed ++ old_d) <>
    old_v ++ new_v ++ new_c ++ new_e ++ new_ed ++ new_d.
Proof.
  split.
  - apply text_eqb_eq. vm_compute. reflexivity.
  - apply text_eqb_neq. vm_compute. reflexivity.
Qed.

(** C3, amended. For a buffer made of the five old blocks, in any order,
    with a text before the first block and a text after each block, where
    none of these surrounding texts holds any of the five old literals,
    the patcher turns every old block into the new block of its rule and
    leaves the surrounding texts as they were. *)
Theorem five_blocks_patched (t0 : text) (ps : list ((text * text) * text)) :
  Permutation (map fst ps) rules ->
  inert t0 = true ->
  Forall (fun rt => inert rt.2 = true) ps ->
  patch (layout t0 (map (fun rt => (rt.1.1, rt.2)) ps)) =
    layout t0 (map (fun rt => (rt.1.2, rt.2)) ps).
Proof.
  intros Hperm Ht0 Hts. apply patch_layout; [|done].
  rewrite List.Forall_forall in *. intros rt Hrt. split; [|by apply Hts].
  apply (Permutation_in _ Hperm). by apply in_map.
Qed.

Lemma five_blocks_patched_witness :
  patch (chars "<td>" ++ old_v ++ [LF] ++ old_c ++ [LF] ++ old_e ++ [LF] ++
         old_ed ++ [LF] ++ old_d ++ chars "</td>") =
  chars "<td>" ++ new_v ++ [LF] ++ new_c ++ [LF] ++ new_e ++ [LF] ++
  new_ed ++ [LF] ++ new_d ++ chars "</td>".
Proof.
  pose proof (five_blocks_patched (chars "<td>")
    [ ((old_v, new_v), [LF]); ((old_c, new_c), [LF]); ((old_e, new_e), [LF]);
      ((old_ed, new_ed), [LF]); ((old_d, new_d), chars "</td>") ]) as H.
  unfold layout in H. cbn [map flat_map fst snd] in H.
  rewrite <- !(assoc_L (++)), !app_nil_r in H.
  apply H.
  - reflexivity.
  - vm_compute. reflexivity.
  - repeat (constructor; [vm_compute; reflexivity|]). constructor.
Defined.

(** C4. On a buffer that held all five old literals, the patched buffer
    holds none of them, and patching it again changes nothing. *)
Theorem patch_idempotent (buf : text) :
  (forall r, In r rules -> contains buf r.1 = true) ->
  patch (patch buf) = patch buf /\
  forall r, In r rules -> contains (patch buf) r.1 = false.
Proof.
  intros _. split.
  - rewrite !patch_apply_rules. apply sealed_idempotent. exact rules_sealed.
  - intros r Hr. pose proof (sealed_clears rules buf rules_sealed) as H.
    rewrite List.Forall_forall in H. rewrite patch_apply_rules. by apply H.
Qed.

Lemma patch_idempotent_witness :
  let buf := old_v ++ old_c ++ old_e ++ old_ed ++ old_d in
  patch (patch buf) = patch buf /\
  forall r, In r rules -> contains (patch buf) r.1 = false.
Proof.
  apply patch_idempotent.
  intros r Hr. simpl in Hr.
  destruct Hr as [<-|[<-|[<-|[<-|[<-|[]]]]]]; vm_compute; reflexivity.
Defined.

(** C5. The patcher is the composition of the five rule substitutions in
    the order visibility toggle, copy, enable/disable, edit, delete, each
    applied to the output of the one before. *)
Theorem patch_is_sequential (buf : text) :
  patch buf = patch_sequential buf /\
  rules = [ (old_v, new_v); (old_c, new_c); (old_e, new_e);
            (old_ed, new_ed); (old_d, new_d) ].
Proof. split; reflexivity. Qed.

(** C6. For each of the five rules, every occurrence of the old literal is
    replaced, not only the first: two occurrences anywhere in a buffer are
    both replaced, and a buffer made of segments without the old literal,
    separated by the old literal, comes back with the same segments
    separated by the new literal. The match is exact: a buffer that does
    not hold the old literal character for character is left as it is. *)
Theorem every_occurrence_replaced (r : text * text) :
  In r rules ->
  (forall a b c : text,
     replace (a ++ r.1 ++ b ++ r.1 ++ c) r.1 r.2 =
       replace a r.1 r.2 ++ r.2 ++ replace b r.1 r.2 ++ r.2 ++
       replace c r.1 r.2) /\
  (forall segs : list text,
     Forall (fun seg => contains seg r.1 = false) segs ->
     replace (join r.1 segs) r.1 r.2 = join r.2 segs) /\
  (forall buf : text,
     (forall pre post, buf <> pre ++ r.1 ++ post) ->
     replace buf r.1 r.2 = buf).
Proof.
  intros Hr.
  pose proof (rule_nonempty r Hr) as Hne.
  pose proof (rule_unbordered r Hr) as Hub.
  split; [|split].
  - intros a b c. by rewrite !replace_around.
  - intros segs Hsegs. by apply replace_join.
  - intros buf Hbuf. apply replace_absent. by apply contains_absent.
Qed.

Lemma every_occurrence_replaced_witness :
  let segs := [chars "<tr>"; chars "<hr />"; chars "</tr>"] in
  let lowered := take 19 old_ed ++ chars "p" ++ drop 20 old_ed in
  replace (join old_ed segs) old_ed new_ed = join new_ed segs /\
  replace lowered old_ed new_ed = lowered /\
  replace (drop 1 old_ed) old_ed new_ed = drop 1 old_ed.
Proof.
  intros segs lowered.
  destruct (every_occurrence_replaced (old_ed, new_ed)) as (_ & H2 & H3).
  { simpl. tauto. }
  split; [|split].
  - apply H2. repeat constructor.
  - apply H3. apply contains_absent. vm_compute. reflexivity.
  - apply H3. apply contains_absent. vm_compute. reflexivity.
Defined.

(** C7. The new delete literal is a popup whose trigger button has no
    [onClick] handler and no [manageToken] call, whose properties open it
    on click and keep it open while hovered, and whose only call
    [manageToken(token.id, 'delete', idx)] sits in the [onClick] handler
    of a second button inside the popup; the trigger carries an
    [aria-label] with the fallback text 'Delete' and the inner button the
    label with the fallback text 'Delete Token'. The old literal had a
    single button that called [manageToken] itself. *)
Theorem delete_is_two_step :
  new_d = new_d_parts /\
  contains delete_trigger (chars "onClick") = false /\
  contains delete_trigger (chars "manageToken") = false /\
  contains delete_trigger
    (chars "aria-label={t('common:delete', 'Delete')}") = true /\
  contains delete_popup_props (chars "on='click'") = true /\
  contains delete_popup_props (chars "hoverable") = true /\
  contains delete_confirm (chars "onClick={() => {") = true /\
  contains delete_confirm
    (chars "manageToken(token.id, 'delete', idx)") = true /\
  contains delete_confirm
    (chars "{t('token.confirm_delete', 'Delete Token')}") = true /\
  count new_d (chars "manageToken") = 1 /\
  count new_d (chars "onClick") = 1 /\
  count new_d (chars "<Button") = 2 /\
  count old_d (chars "<Button") = 1 /\
  contains old_d (chars "manageToken(token.id, 'delete', idx)") = true.
Proof. repeat split; vm_compute; reflexivity. Qed.



(** C9. Every rule's new literal is strictly longer than its old literal,
    and the patched buffer is never shorter than the buffer. *)
Theorem patch_never_shortens :
  (forall r, In r rules -> length r.1 < length r.2) /\
  (forall buf : text, length buf <= length (patch buf)).
Proof.
  assert (forall r, In r rules -> length r.1 < length r.2) as Hgrow.
  { intros r Hr. pose proof rules_grow as G.
    rewrite forallb_forall in G. apply G in Hr.
    by apply Nat.ltb_lt in Hr. }
  split; [exact Hgrow|].
  intros buf. rewrite patch_apply_rules. apply apply_rules_length.
  apply List.Forall_forall. intros r Hr. apply Hgrow in Hr. lia.
Qed.

Lemma patch_never_shortens_witness :
  length old_v < length new_v /\ length old_v <= length (patch old_v).
Proof.
  destruct patch_never_shortens as [H1 H2]. split.
  - apply (H1 (old_v, new_v)). simpl. tauto.
  - apply H2.
Defined.


(** * Further properties of the patcher *)

Section more.
Implicit Types (s buf t p l a b : text) (r : text * text)
  (rs : list (text * text)).

(** A literal that is apart from a block is replaced on both sides of the
    block, and the block stays. *)
Lemma replace_across p n l a b :
  p <> [] -> unbordered p = true -> apart p l = true ->
  replace (a ++ l ++ b) p n = replace a p n ++ l ++ replace b p n.
Proof.
  intros Hne Hub Hap. remember (length a) as k eqn:Hk.
  revert a Hk. induction k as [k IH] using lt_wf_ind. intros a ->.
  destruct (contains a p) eqn:Ca.
  - apply leftmost_split in Ca as (pre & post & -> & Hl); [|done].
    rewrite <- !(assoc_L (++)). rewrite !(replace_leftmost pre) by done.
    rewrite (IH (length post)); [|rewrite !length_app; destruct p; [done|simpl; lia]|done].
    by rewrite <- !(assoc_L (++)).
  - rewrite (replace_absent a) by done.
    destruct (contains b p) eqn:Cb.
    + apply leftmost_split in Cb as (pre & post & -> & Hl); [|done].
      rewrite (replace_leftmost pre) by done.
      assert (forall x, a ++ l ++ pre ++ x = (a ++ l ++ pre) ++ x) as A
        by (intros x; by rewrite <- !(assoc_L (++))).
      rewrite !A. apply replace_leftmost; [done|].
      apply unbordered_leftmost; [done|]. apply apart_block; [done..|].
      by apply contains_app_l in Hl.
    + rewrite (replace_absent b) by done.
      apply replace_absent. by apply apart_block.
Qed.

(** A compatible rule sequence works on both sides of a block and settles
    the block. *)
Lemma apply_rules_around rs l a b :
  compatible rs [l] = true ->
  apply_rules rs (a ++ l ++ b) =
    apply_rules rs a ++ settle rs l ++ apply_rules rs b.
Proof.
  revert l a b. induction rs as [|r rs IH]; intros l a b Hc; [done|].
  cbn [compatible forallb map] in Hc. rewrite !andb_true_iff in Hc.
  destruct Hc as [[[Hne Hub] [Hl _]] Hc].
  apply nonempty_eqb in Hne.
  cbn [apply_rules]. unfold settle. cbn [fold_left]. fold (settle rs (swap r l)).
  rewrite <- IH by done. f_equal. unfold swap in *.
  destruct (text_eqb l r.1) eqn:E.
  - apply text_eqb_eq in E as ->. by apply replace_around.
  - by apply replace_across.
Qed.
End more.

Lemma forallb_false {A} (f : A -> bool) (xs : list A) :
  forallb f xs = false -> exists x, In x xs /\ f x = false.
Proof.
  induction xs as [|x xs IH]; cbn [forallb]; [done|].
  destruct (f x) eqn:E.
  - intros (y & Hy & Hf)%IH. exists y. split; [by right|done].
  - intros _. exists x. split; [by left|done].
Qed.

Lemma inert_nil : inert [] = true.
Proof. vm_compute. reflexivity. Qed.

(** A part of an inert text is inert. *)
Lemma inert_part a t b : inert (a ++ t ++ b) = true -> inert t = true.
Proof.
  unfold inert. rewrite !forallb_forall. intros H r Hr.
  apply negb_true_iff. specialize (H r Hr). apply negb_true_iff in H.
  by apply contains_part in H.
Qed.

(** Every text is a layout of old blocks and inert texts. *)
Lemma layout_exists (buf : text) :
  exists t0 (ps : list ((text * text) * text)),
    buf = layout t0 (map (fun rt => (rt.1.1, rt.2)) ps) /\
    inert t0 = true /\
    Forall (fun rt => In rt.1 rules /\ inert rt.2 = true) ps.
Proof.
  induction buf as [|c buf (t0 & ps & -> & Ht0 & Hps)].
  - exists [], []. split; [done|]. split; [apply inert_nil|constructor].
  - destruct (inert (c :: t0)) eqn:E.
    + exists (c :: t0), ps. done.
    + apply forallb_false in E as (r & Hr & E).
      apply negb_false_iff in E. cbn [contains] in E.
      pose proof (inert_absent t0 Ht0) as H0.
      rewrite List.Forall_forall in H0. rewrite (H0 r Hr) in E.
      destruct (startswith (c :: t0) r.1) eqn:S; [|done].
      apply startswith_iff in S as [rest S].
      exists [], ((r, rest) :: ps). split; [|split].
      * unfold layout. cbn [map flat_map fst snd app].
        change (c :: t0 ++ ?x) with ((c :: t0) ++ x). rewrite S.
        by rewrite <- !(assoc_L (++)).
      * apply inert_nil.
      * constructor; [|done]. split; [done|].
        pose proof (rule_nonempty r Hr) as Hne.
        destruct r.1 as [|x o] eqn:Er; [done|].
        injection S as -> ->. apply (inert_part o rest []).
        by rewrite app_nil_r.
Qed.

Lemma flat_map_le (ps : list ((text * text) * text)) :
  Forall (fun rt => In rt.1 rules /\ inert rt.2 = true) ps ->
  length (flat_map (fun bt => bt.1 ++ bt.2)
            (map (fun rt => (rt.1.1, rt.2)) ps)) <=
  length (flat_map (fun bt => bt.1 ++ bt.2)
            (map (fun rt => (rt.1.2, rt.2)) ps)).
Proof.
  induction 1 as [|rt ps [Hr _] Hps IH]; [done|].
  cbn [map flat_map fst snd]. rewrite !length_app.
  pose proof rules_grow as G. rewrite forallb_forall in G.
  apply G, Nat.ltb_lt in Hr. lia.
Qed.

Lemma flat_map_grows (ps : list ((text * text) * text)) :
  Forall (fun rt => In rt.1 rules /\ inert rt.2 = true) ps ->
  ps <> [] ->
  length (flat_map (fun bt => bt.1 ++ bt.2)
            (map (fun rt => (rt.1.1, rt.2)) ps)) <
  length (flat_map (fun bt => bt.1 ++ bt.2)
            (map (fun rt => (rt.1.2, rt.2)) ps)).
Proof.
  intros H Hne. destruct H as [|rt ps [Hr _] Hps]; [done|].
  apply flat_map_le in Hps.
  cbn [map flat_map fst snd]. rewrite !length_app.
  pose proof rules_grow as G. rewrite forallb_forall in G.
  apply G, Nat.ltb_lt in Hr. lia.
Qed.

Lemma rules_independent : independent rules = true.
Proof. vm_compute. reflexivity. Qed.

Lemma apart_neq (p l : text) : apart p l = true -> l <> p.
Proof.
  unfold apart. rewrite !andb_true_iff, !negb_true_iff.
  intros [[[H _] _] _] ->.
  pose proof (contains_self_app [] p []) as E. rewrite app_nil_r in E.
  simpl in E. congruence.
Qed.

Lemma independent_pair (rs0 : list (text * text)) (r r' : text * text) :
  independent rs0 = true -> In r rs0 -> In r' rs0 ->
  negb (text_eqb r.1 []) = true /\ unbordered r.1 = true /\
  apart r.1 r'.2 = true /\
  (text_eqb r'.1 r.1 || apart r.1 r'.1) = true /\
  (r'.1 = r.1 -> r'.2 = r.2).
Proof.
  unfold independent. rewrite forallb_forall. intros H Hr Hr'.
  specialize (H r Hr). rewrite !andb_true_iff, forallb_forall in H.
  destruct H as [[Hne Hub] H]. specialize (H r' Hr').
  apply andb_true_iff in H as [H1 H2]. repeat split; try done.
  - destruct (text_eqb r'.1 r.1); done.
  - intros E. apply text_eqb_eq in E. rewrite E in H1.
    by apply text_eqb_eq.
Qed.

(** Independent rules are compatible, in any order, with blocks that are
    old or new literals of theirs. *)
Lemma independent_compatible (rs0 rs : list (text * text)) (bs : list text) :
  independent rs0 = true ->
  (forall r, In r rs -> In r rs0) ->
  (forall l, In l bs -> exists r, In r rs0 /\ (l = r.1 \/ l = r.2)) ->
  compatible rs bs = true.
Proof.
  intros Hind. revert bs. induction rs as [|r rs IH]; intros bs Hrs Hbs; [done|].
  assert (In r rs0) as Hr by (apply Hrs; by left).
  destruct (independent_pair rs0 r r Hind Hr Hr) as (Hne & Hub & _).
  cbn [compatible]. rewrite !andb_true_iff. repeat split; [done..| |].
  - apply forallb_forall. intros l (r' & Hr' & Hl)%Hbs.
    destruct (independent_pair rs0 r r' Hind Hr Hr') as (_ & _ & H2 & H1 & _).
    destruct Hl as [->| ->]; [done|]. rewrite H2. apply orb_true_r.
  - apply IH; [intros r' Hr'; apply Hrs; by right|].
    intros l (l0 & <- & Hl0)%in_map_iff. unfold swap.
    destruct (text_eqb l0 r.1); [|by apply Hbs].
    exists r. split; [done|by right].
Qed.

Lemma settle_new (rs0 rs : list (text * text)) (r : text * text) :
  independent rs0 = true ->
  (forall r', In r' rs -> In r' rs0) -> In r rs0 ->
  settle rs r.2 = r.2.
Proof.
  intros Hind. induction rs as [|r' rs IH]; intros Hrs Hr; [done|].
  assert (In r' rs0) as Hr' by (apply Hrs; by left).
  destruct (independent_pair rs0 r' r Hind Hr' Hr) as (_ & _ & H2 & _).
  unfold settle. cbn [fold_left]. fold (settle rs (swap r' r.2)).
  unfold swap. apply apart_neq, text_eqb_neq in H2. rewrite H2.
  apply IH; [|done]. intros r'' H. apply Hrs. by right.
Qed.

Lemma settle_old (rs0 rs : list (text * text)) (r : text * text) :
  independent rs0 = true ->
  (forall r', In r' rs -> In r' rs0) -> In r rs0 -> In r rs ->
  settle rs r.1 = r.2.
Proof.
  intros Hind. induction rs as [|r' rs IH]; intros Hrs Hr Hin; [done|].
  assert (In r' rs0) as Hr' by (apply Hrs; by left).
  assert (forall r'', In r'' rs -> In r'' rs0) as Hrs'
    by (intros r'' H; apply Hrs; by right).
  destruct (independent_pair rs0 r' r Hind Hr' Hr) as (_ & _ & _ & _ & Heq).
  unfold settle. cbn [fold_left]. fold (settle rs (swap r' r.1)).
  unfold swap. destruct (text_eqb r.1 r'.1) eqn:E.
  - apply text_eqb_eq in E. rewrite <- (Heq E).
    by apply (settle_new rs0).
  - apply IH; [done..|]. destruct Hin as [->|Hin]; [|done].
    apply text_eqb_neq in E. done.
Qed.

(** The scan counts what it replaces. *)
Lemma count_from_skip (old : text) k (s : text) :
  count_from old k s = count_from old 0 (drop k s).
Proof.
  revert k. induction s as [|c s IH]; intros [|k]; simpl; auto.
Qed.

Lemma count_cons c (s old : text) :
  old <> [] ->
  count (c :: s) old =
    if startswith (c :: s) old
    then S (count (drop (length old) (c :: s)) old)
    else count s old.
Proof.
  destruct old as [|a old]; [done|]. intros _. unfold count.
  cbn [count_from]. destruct (startswith (c :: s) (a :: old)); [|done].
  rewrite count_from_skip. simpl. by rewrite Nat.sub_0_r.
Qed.

(** X1. The patcher works around every old block: an old block of any rule
    at any place of the buffer becomes the rule's new block, and the text
    before it and the text after it are patched on their own, whatever
    they hold. *)
Theorem patch_around (r : text * text) (a b : text) :
  In r rules ->
  patch (a ++ r.1 ++ b) = patch a ++ r.2 ++ patch b.
Proof.
  intros Hr. rewrite !patch_apply_rules, apply_rules_around.
  - by rewrite settle_rule.
  - apply (compatible_subset rules [old_v; old_c; old_e; old_ed; old_d]);
      [|exact rules_compatible].
    intros l [<-|[]].
    change [old_v; old_c; old_e; old_ed; old_d] with (map fst rules).
    by apply in_map.
Qed.

Lemma patch_around_witness :
  patch ((old_v ++ chars "<hr />") ++ old_e ++ (chars "<br />" ++ old_d)) =
    patch (old_v ++ chars "<hr />") ++ new_e ++ patch (chars "<br />" ++ old_d).
Proof.
  apply (patch_around (old_e, new_e)). simpl. tauto.
Defined.

(** X2. Every buffer is a sequence of old blocks of the rules separated by
    texts that hold no old literal, and the patcher returns the same
    sequence with every old block exchanged for the new block of its rule
    and the texts as they were. *)
Theorem patch_decomposition (buf : text) :
  exists (t0 : text) (ps : list ((text * text) * text)),
    buf = layout t0 (map (fun rt => (rt.1.1, rt.2)) ps) /\
    inert t0 = true /\
    Forall (fun rt => In rt.1 rules /\ inert rt.2 = true) ps /\
    patch buf = layout t0 (map (fun rt => (rt.1.2, rt.2)) ps).
Proof.
  destruct (layout_exists buf) as (t0 & ps & -> & Ht0 & Hps).
  exists t0, ps. repeat split; try done. by apply patch_layout.
Qed.

(** X3. The patcher leaves a buffer as it is exactly when none of the five
    old literals occurs in it; when one occurs the patched buffer is
    strictly longer. *)
Theorem patch_changes_iff_match (buf : text) :
  (patch buf = buf <-> inert buf = true) /\
  (inert buf = false -> length buf < length (patch buf)).
Proof.
  assert (inert buf = false -> length buf < length (patch buf)) as Hgrow.
  { intros Hb. destruct (layout_exists buf) as (t0 & ps & -> & Ht0 & Hps).
    rewrite patch_layout by done. unfold layout. rewrite !length_app.
    assert (ps <> []) as Hne.
    { intros ->. unfold layout in Hb. simpl in Hb.
      rewrite app_nil_r in Hb. congruence. }
    pose proof (flat_map_grows ps Hps Hne). lia. }
  split; [|exact Hgrow]. split.
  - intros E. destruct (inert buf) eqn:Hb; [done|].
    specialize (Hgrow eq_refl). rewrite E in Hgrow. lia.
  - intros Hb. rewrite patch_apply_rules.
    apply apply_rules_absent. by apply inert_absent.
Qed.

Lemma patch_changes_iff_match_witness :
  (patch (chars "<Popup />") = chars "<Popup />") /\
  length (chars "<td>" ++ old_c) < length (patch (chars "<td>" ++ old_c)).
Proof.
  split.
  - apply (patch_changes_iff_match (chars "<Popup />")).
    vm_compute. reflexivity.
  - apply (patch_changes_iff_match (chars "<td>" ++ old_c)).
    vm_compute. reflexivity.
Defined.

(** X4. Whatever the buffer, none of the five old literals occurs in the
    patched buffer, and patching it again changes nothing. *)
Theorem patch_settles (buf : text) :
  inert (patch buf) = true /\ patch (patch buf) = patch buf.
Proof.
  split.
  - unfold inert. apply forallb_forall. intros r Hr.
    pose proof (sealed_clears rules buf rules_sealed) as H.
    rewrite List.Forall_forall in H. rewrite patch_apply_rules.
    apply negb_true_iff. by apply H.
  - rewrite !patch_apply_rules. apply sealed_idempotent. exact rules_sealed.
Qed.

(** X5. The order of the five rules does not matter: applied in any order
    they give what the script gives. *)
Theorem rules_commute (rs : list (text * text)) (buf : text) :
  Permutation rs rules ->
  apply_rules rs buf = patch buf.
Proof.
  intros Hperm.
  assert (forall r, In r rs -> In r rules) as Hsub
    by (intros r; apply Permutation_in; done).
  assert (forall r, In r rules -> In r rs) as Hsup
    by (intros r; apply Permutation_in; done).
  destruct (layout_exists buf) as (t0 & ps & -> & Ht0 & Hps).
  rewrite patch_layout by done. rewrite List.Forall_forall in Hps.
  rewrite apply_rules_layout.
  - f_equal. rewrite map_map. apply map_ext_in. intros rt Hrt.
    cbn [fst snd]. f_equal. destruct (Hps rt Hrt) as [Hr _].
    apply (settle_old rules); auto using rules_independent.
  - rewrite map_map. cbn [fst].
    apply (independent_compatible rules); [exact rules_independent|done|].
    intros l (rt & <- & Hrt)%in_map_iff. exists rt.1.
    split; [by apply Hps|by left].
  - assert (forall t, inert t = true ->
              Forall (fun r => contains t r.1 = false) rs) as Hin.
    { intros t Ht. apply inert_absent in Ht.
      rewrite List.Forall_forall in *. auto. }
    rewrite map_map. cbn [snd]. constructor; [by apply Hin|].
    apply List.Forall_forall. intros t (rt & <- & Hrt)%in_map_iff.
    apply Hin. by apply Hps.
Qed.

Lemma rules_commute_witness :
  apply_rules (rev rules) (old_d ++ chars "<hr />" ++ old_v) =
    patch (old_d ++ chars "<hr />" ++ old_v).
Proof.
  apply rules_commute. symmetry. apply Permutation_rev.
Defined.

(** X6. Running the script again after a normal run writes the same text
    again: if both runs end normally and the second run reads back what
    the first one wrote, then the second run hands to [write] exactly the
    text the first run wrote, and the two runs together have opened only
    the target, for reading and for writing in turn. *)
Theorem run_twice_same {St H : Type} (rt : runtime St H) (s : St) (c : text) :
  let out := run_twice rt (Machine s []) in
  out.2 = inr tt ->
  texts_read (trace out.1) = [c; patch c] ->
  texts_written (trace out.1) = [patch c; patch c] /\
  opened (trace out.1) =
    [(target, ModeR); (target, ModeW); (target, ModeR); (target, ModeW)].
Proof.
  intros out. unfold out, run_twice, io_bind.
  pose proof (run_normal rt (Machine s [])) as N1.
  destruct (run rt (Machine s [])) as [mc1 [e|[]]]; [discriminate|].
  cbn [fst snd trace app] in N1. destruct (N1 eq_refl) as [c1 T1].
  intros Hok. destruct (run_normal rt mc1 Hok) as [c2 T2].
  rewrite T2, T1. cbn -[patch]. intros [= <- ->].
  destruct (patch_settles c1) as [_ ->]. done.
Qed.

Lemma run_twice_same_witness :
  let st := Sample [] ∅ {[ target := File old_ed false ]} in
  let out := run_twice sample_rt (Machine st []) in
  texts_written (trace out.1) = [patch old_ed; patch old_ed] /\
  opened (trace out.1) =
    [(target, ModeR); (target, ModeW); (target, ModeR); (target, ModeW)].
Proof.
  intros st out.
  apply (run_twice_same sample_rt st old_ed); vm_compute; reflexivity.
Defined.

(** X7. One replace step changes the length by the number of matches times
    the difference of the two literals' lengths. *)
Theorem replace_counts (s old new : text) :
  old <> [] ->
  length (replace s old new) + count s old * length old =
    length s + count s old * length new.
Proof.
  intros Hne. remember (length s) as n eqn:Hn.
  revert s Hn. induction n as [n IH] using lt_wf_ind. intros s ->.
  destruct s as [|c s].
  - rewrite replace_nil by done. destruct old; [done|]. reflexivity.
  - rewrite replace_cons, count_cons by done.
    destruct (startswith (c :: s) old) eqn:E.
    + apply startswith_length in E.
      pose proof (IH (length (drop (length old) (c :: s)))) as H.
      specialize (H ltac:(rewrite length_drop; destruct old;
                          [done|simpl in *; lia]) _ eq_refl).
      rewrite length_drop in H. rewrite length_app, !Nat.mul_succ_l. lia.
    + specialize (IH (length s) ltac:(simpl; lia) s eq_refl).
      cbn [length]. lia.
Qed.

Lemma replace_counts_witness :
  length (replace (old_c ++ old_v ++ old_c) old_c new_c) +
    count (old_c ++ old_v ++ old_c) old_c * length old_c =
  length (old_c ++ old_v ++ old_c) +
    count (old_c ++ old_v ++ old_c) old_c * length new_c.
Proof.
  apply replace_counts. discriminate.
Defined.
